(** * BARW: the simulation driver of branching_simulation.py

    A shallow embedding of [Tissue] and [simulation_loop].  Arrays of
    float64 are lists of real numbers, a two-dimensional array is a list of
    rows, and the two kernel functions of the module [branching_rules]
    (imported as [br]) are parameters of the development: they receive and
    return the state of the pseudo-random generator explicitly, they return
    normally, and the tip array they return has four columns. *)

From Stdlib Require Import List ZArith Reals Lia Lra Bool.
Import ListNotations.

Open Scope R_scope.

(** ** numpy arrays and the operations the driver uses *)

(** A row of the tip array: [[x, y, label, label]], four float64 columns. *)
Record row : Type := mkRow { col0 : R; col1 : R; col2 : R; col3 : R }.

(** [l[-k:]] on a Python sequence: the last [k] items, the whole sequence
    when [k = 0] (because [-0 = 0]) or when [k] exceeds the length. *)
Definition slice_last {A : Type} (k : nat) (l : list A) : list A :=
  if (k =? 0)%nat then l else skipn (length l - k) l.

(** [l[:-k]]: everything but the last [k] items, empty when [k = 0] or when
    [k] exceeds the length. *)
Definition slice_but_last {A : Type} (k : nat) (l : list A) : list A :=
  if (k =? 0)%nat then [] else firstn (length l - k) l.

(** [np.sum] of an integer array. *)
Definition np_sum (l : list nat) : nat := list_sum l.

(** [x % y] on floats: the floored remainder, with the sign of [y]. *)
Definition np_mod (x y : R) : R := x - IZR (Zfloor (x / y)) * y.

(** [np.degrees]. *)
Definition np_degrees (x : R) : R := x * (180 / PI).

(** [np.column_stack((a, b))] of two one-dimensional arrays; numpy raises
    ValueError when their lengths differ, here [None]. *)
Fixpoint column_stack (a b : list R) : option (list (R * R)) :=
  match a, b with
  | [], [] => Some []
  | x :: a', y :: b' =>
      match column_stack a' b' with
      | Some rows => Some ((x, y) :: rows)
      | None => None
      end
  | _, _ => None
  end.

(** ** class Tissue *)

Definition lstep : R := 1.

Record Tissue : Type := mkTissue {
  tip : list row;
  angle : list R;
  min_angle : R;
  rad_avoid : R;
  rad_termin : R;
  prob : R
}.

(** Default values of the keyword arguments of [Tissue.__init__]. *)
Definition default_min_angle : R := PI / 10.
Definition default_rad_avoid : R := 3 * lstep.
Definition default_rad_termin : R := 1.5 * lstep.

Definition Tissue_init (prob : R) (tip : list row) (angle : list R)
    (min_angle rad_avoid rad_termin : R) : Tissue :=
  {| tip := tip; angle := angle; min_angle := min_angle;
     rad_avoid := rad_avoid; rad_termin := rad_termin; prob := prob |}.

(** [self.tip = updated_info['tip']; self.angle = updated_info['angle']]. *)
Definition Tissue_update (self : Tissue) (tip' : list row) (angle' : list R) : Tissue :=
  {| tip := tip'; angle := angle'; min_angle := min_angle self;
     rad_avoid := rad_avoid self; rad_termin := rad_termin self;
     prob := prob self |}.

(** The three returned arrays, the values of the keys ['coordinates'],
    ['angles'] and ['evolve'] of the dictionary [d]. *)
Record output : Type := mkOutput {
  d_coordinates : list row;
  d_angles : list (R * R);
  d_evolve : list nat
}.

(** ** A kernel to run the driver on

    [branching_rules] is a separate module; the driver is verified for every
    kernel.  To run [simulation_loop] on closed inputs the kernel below is
    used: its generator state is the list of the coin flips still to come,
    one per call of [branching].  On [true] every tip forks into two
    children whose headings are [min_angle] to either side of the parent's,
    on [false] every tip elongates by [lstep] and keeps its heading, and
    once the flips are used up every tip is annihilated.  Guidance turns
    every heading by [fc] and moves no tip. *)

Definition demo_elongate (r : row) : row :=
  mkRow (col0 r + lstep) (col1 r) (col2 r) (col3 r).

Definition demo_fork (r : row) : row :=
  mkRow (col0 r + lstep) (col1 r) (col2 r) (col3 r + 1).

Definition demo_branching (g : list bool) (prob : R) (tip : list row)
    (angle : list R) (coords : list row) (min_angle rad_termin : R)
    : list row * list R * list bool :=
  match g with
  | [] => ([], [], [])
  | false :: g' => (map demo_elongate tip, angle, g')
  | true :: g' =>
      (map demo_fork tip ++ map demo_fork tip,
       map (fun a => a + min_angle) angle ++ map (fun a => a - min_angle) angle,
       g')
  end.

Definition demo_guidance (g : list bool) (tip : list row) (angle : list R)
    (coord_last coords_till : list row) (fc fs rad_avoid : R)
    : list row * list R * list bool :=
  (tip, map (fun a => a + fc) angle, g).

(** A kernel in which every tip elongates at every call, whatever the
    generator state; used with [demo_guidance]. *)
Definition demo_walk (g : list bool) (prob : R) (tip : list row)
    (angle : list R) (coords : list row) (min_angle rad_termin : R)
    : list row * list R * list bool :=
  (map demo_elongate tip, angle, g).

(** A guidance that hands back the tips without any heading. *)
Definition demo_guidance_no_heading (g : list bool) (tip : list row)
    (angle : list R) (coord_last coords_till : list row) (fc fs rad_avoid : R)
    : list row * list R * list bool :=
  (tip, [], g).

Section Driver.

(** The generator state of [np.random], which [branching_rules] draws from. *)
Variable rng : Type.

(** [br.branching(prob, tip, angle, coords, min_angle, rad_termin)],
    returning [updated_info['tip']], [updated_info['angle']] and the
    generator state it leaves. *)
Variable branching :
  rng -> R -> list row -> list R -> list row -> R -> R -> list row * list R * rng.

(** [br.guidance_avoidance(tip, angle, coord_last, coords_till, fc, fs, rad_avoid)]. *)
Variable guidance_avoidance :
  rng -> list row -> list R -> list row -> list row -> R -> R -> R ->
  list row * list R * rng.

(** [Tissue.evolve(self, coords)]. *)
Definition Tissue_evolve (self : Tissue) (g : rng) (coords : list row) : Tissue * rng :=
  let '(tip', angle', g') :=
    branching g (prob self) (tip self) (angle self) coords
              (min_angle self) (rad_termin self) in
  (Tissue_update self tip' angle', g').

(** [Tissue.guidance(self, coord_last, coords_till, fc, fs)]. *)
Definition Tissue_guidance (self : Tissue) (g : rng)
    (coord_last coords_till : list row) (fc fs : R) : Tissue * rng :=
  let '(tip', angle', g') :=
    guidance_avoidance g (tip self) (angle self) coord_last coords_till
                       fc fs (rad_avoid self) in
  (Tissue_update self tip' angle', g').

(** The local variables of [simulation_loop], with the generator state. *)
Record locals : Type := mkLocals {
  neuron : Tissue;
  gen : rng;
  coordinates : list row;
  coords_last : list row;
  coords_until : list row;
  angle_list : list (R * R);
  last_tiplength_fin : list nat
}.

(** Line 152: [(neuron.angle + np.pi) % (2*np.pi) - np.pi], one heading. *)
Definition normalize (a : R) : R := np_mod (a + PI) (2 * PI) - PI.

(** Lines 148 and 149: [neuron.evolve(coordinates)] and then
    [neuron.guidance(coords_last, coords_until, fc, fs)]. *)
Definition grow_steer (fc fs : R) (s : locals) : Tissue * rng :=
  let '(n1, g1) := Tissue_evolve (neuron s) (gen s) (coordinates s) in
  Tissue_guidance n1 g1 (coords_last s) (coords_until s) fc fs.

(** Line 152: the local array [angle], the normalized headings of a step. *)
Definition normalized (fc fs : R) (s : locals) : list R :=
  map normalize (angle (fst (grow_steer fc fs s))).

(** The block guarded by [if len(neuron.tip) > 0] (lines 148 to 161) at
    loop index [t]; [None] when [np.column_stack] raises.  A tip array is a
    list of rows, that is an array of shape [(n, 4)], also for [n = 0]: a
    kernel that hands back an array of another shape, on which
    [neuron.tip[:,-1]] or [np.append] raises, is outside the model. *)
Definition step (fc fs : R) (t : nat) (s : locals) : option locals :=
  let '(n2, g2) := grow_steer fc fs s in
  let angle' := map normalize (angle n2) in
  match column_stack (map np_degrees angle') (map col3 (tip n2)) with
  | None => None
  | Some rows =>
      let angle_list' := angle_list s ++ rows in
      let coordinates' := coordinates s ++ tip n2 in
      let ltf := last_tiplength_fin s ++ [length (tip n2)] in
      let coords_last' := slice_last (np_sum (slice_last 1 ltf)) coordinates' in
      let coords_until' :=
        if (2 <? t)%nat
        then slice_but_last (np_sum (slice_last 2 ltf)) coordinates'
        else coords_until s in
      Some {| neuron := n2; gen := g2; coordinates := coordinates';
              coords_last := coords_last'; coords_until := coords_until';
              angle_list := angle_list'; last_tiplength_fin := ltf |}
  end.

(** What one pass through the body of the [for] loop leads to. *)
Inductive outcome : Type :=
| Continue (s : locals)
| Break (s : locals)
| Raise.

(** True when the guarded block runs at a state: [len(neuron.tip) > 0]. *)
Definition active (s : locals) : bool := (0 <? length (tip (neuron s)))%nat.

(** One pass: the guarded block, then [if len(neuron.tip) == 0: break]. *)
Definition iteration (fc fs : R) (t : nat) (s : locals) : outcome :=
  match (if active s then step fc fs t s else Some s) with
  | None => Raise
  | Some s' =>
      if (length (tip (neuron s')) =? 0)%nat then Break s' else Continue s'
  end.

(** [for t in range(t, t + n)]. *)
Fixpoint for_range (fc fs : R) (t n : nat) (s : locals) : option locals :=
  match n with
  | O => Some s
  | S n' =>
      match iteration fc fs t s with
      | Continue s' => for_range fc fs (S t) n' s'
      | Break s' => Some s'
      | Raise => None
      end
  end.

(** The number of passes in which the guarded block ran, that is the number
    of calls of [neuron.evolve], and of [neuron.guidance]. *)
Fixpoint steps_executed (fc fs : R) (t n : nat) (s : locals) : nat :=
  match n with
  | O => O
  | S n' =>
      match iteration fc fs t s with
      | Continue s' =>
          ((if active s then 1 else 0) + steps_executed fc fs (S t) n' s')%nat
      | Break _ => if active s then 1%nat else 0%nat
      | Raise => 1%nat
      end
  end.

(** The locals at the head of each pass that runs the guarded block, with
    the loop index of the pass, in the order of the passes.  [coordinates],
    [coords_last] and [coords_until] are the arrays handed to
    [neuron.evolve] and [neuron.guidance] in that pass; [neuron] is the
    tissue before [neuron.evolve], so [neuron.guidance] is called on
    [fst (Tissue_evolve (neuron s) (gen s) (coordinates s))]. *)
Fixpoint guidance_calls (fc fs : R) (t n : nat) (s : locals) : list (nat * locals) :=
  match n with
  | O => []
  | S n' =>
      (if active s then [(t, s)] else []) ++
      match iteration fc fs t s with
      | Continue s' => guidance_calls fc fs (S t) n' s'
      | _ => []
      end
  end.

(** Lines 131 to 142. *)
Definition start_x : R := 100.
Definition start_y : R := 100.

Definition seed_row : row := mkRow start_x start_y 0 1.

Definition initial (g : rng) (prob : R) : locals :=
  let neuron := Tissue_init prob [seed_row] [PI / 2]
                            default_min_angle 3 default_rad_termin in
  let coordinates := [nth 0 (tip neuron) seed_row] in
  {| neuron := neuron; gen := g;
     coordinates := coordinates;
     coords_last := [];
     coords_until := coordinates;
     angle_list := [(PI / 2, 0)];
     last_tiplength_fin := [length (tip neuron)] |}.

Definition to_dict (s : locals) : output :=
  {| d_coordinates := coordinates s;
     d_angles := angle_list s;
     d_evolve := last_tiplength_fin s |}.

(** The locals when the loop is left; [range(tmax)] is empty for
    [tmax <= 0]. *)
Definition final_locals (g : rng) (prob fc fs : R) (tmax : Z) : option locals :=
  for_range fc fs 0 (Z.to_nat tmax) (initial g prob).

(** [simulation_loop(prob, fc, fs, tmax)] run from generator state [g];
    [None] when an exception leaves the loop. *)
Definition simulation_loop (g : rng) (prob fc fs : R) (tmax : Z) : option output :=
  option_map to_dict (final_locals g prob fc fs tmax).

(** ** Notions the statements use *)

(** The tip array and the heading array have one entry per tip. *)
Definition aligned (n : Tissue) : Prop := length (tip n) = length (angle n).

(** The kernel keeps tips and headings index-aligned: from aligned arrays
    each of its two functions returns aligned arrays. *)
Definition kernel_aligned : Prop :=
  (forall g p tp an coords ma rt,
      length tp = length an ->
      length (fst (fst (branching g p tp an coords ma rt))) =
      length (snd (fst (branching g p tp an coords ma rt)))) /\
  (forall g tp an cl ct fc fs ra,
      length tp = length an ->
      length (fst (fst (guidance_avoidance g tp an cl ct fc fs ra))) =
      length (snd (fst (guidance_avoidance g tp an cl ct fc fs ra)))).

(** [l1] is an initial segment of [l2]: [l2] is [l1] with rows appended. *)
Definition prefix {A : Type} (l1 l2 : list A) : Prop :=
  exists rest, l2 = l1 ++ rest.

(** The counts add up to the number of point records, the angle history
    has one row per point record, and the last count is the number of
    active tips. *)
Definition histories_agree (s : locals) : Prop :=
  np_sum (last_tiplength_fin s) = length (coordinates s) /\
  length (angle_list s) = length (coordinates s) /\
  last (last_tiplength_fin s) 0%nat = length (tip (neuron s)) /\
  hd_error (angle_list s) = Some (PI / 2, 0).

(** At loop index [t] the stable window lies within [h2], [h2] within
    [h1] and [h1] within the point history, and the last counts are the
    numbers of rows between them: [h2] and [h1] stand for the point history
    as it was two passes and one pass earlier. *)
Definition window (t : nat) (s : locals) (h2 h1 : list row) : Prop :=
  prefix (coords_until s) h2 /\
  exists n2 n1,
    h1 = h2 ++ n2 /\
    coordinates s = h1 ++ n1 /\
    ((1 <= t)%nat -> exists l, last_tiplength_fin s = l ++ [length n1]) /\
    ((2 <= t)%nat -> exists l, last_tiplength_fin s = l ++ [length n2; length n1]).

(** The kernel neither creates nor removes a tip: each of its two functions
    returns as many tips and as many headings as it is given. *)
Definition kernel_keeps_count : Prop :=
  (forall g p tp an coords ma rt,
      length (fst (fst (branching g p tp an coords ma rt))) = length tp /\
      length (snd (fst (branching g p tp an coords ma rt))) = length an) /\
  (forall g tp an cl ct fc fs ra,
      length (fst (fst (guidance_avoidance g tp an cl ct fc fs ra))) = length tp /\
      length (snd (fst (guidance_avoidance g tp an cl ct fc fs ra))) = length an).

(** What holds of the rows the steps have appended: the second column of
    the angle rows is the last column of the point rows, the first column
    of the angle rows lies between -180 and 180, and no count before the
    last one is zero. *)
Definition step_rows_agree (s : locals) : Prop :=
  map snd (tl (angle_list s)) = map col3 (tl (coordinates s)) /\
  Forall (fun r => -180 <= fst r <= 180) (tl (angle_list s)) /\
  Forall (fun k => (0 < k)%nat) (removelast (last_tiplength_fin s)) /\
  angle_list s <> [] /\ coordinates s <> [] /\ last_tiplength_fin s <> [].

(** The record returned when the loop body never runs. *)
Definition seed_output : output :=
  {| d_coordinates := [seed_row];
     d_angles := [(PI / 2, 0)];
     d_evolve := [1%nat] |}.

(** ** Properties of the array operations *)

Lemma column_stack_length (a b : list R) (rows : list (R * R)) :
  column_stack a b = Some rows ->
  length rows = length a /\ length a = length b /\
  map fst rows = a /\ map snd rows = b.
Proof.
  revert b rows; induction a as [|x a IH]; intros [|y b] rows H; simpl in H;
    try discriminate.
  - injection H as <-; auto.
  - destruct (column_stack a b) as [r|] eqn:E; [|discriminate].
    injection H as <-; destruct (IH _ _ E) as (H1 & H2 & H3 & H4).
    simpl; repeat split; congruence.
Qed.

Lemma column_stack_some (a b : list R) :
  length a = length b -> exists rows, column_stack a b = Some rows.
Proof.
  revert b; induction a as [|x a IH]; intros [|y b] H; simpl in *;
    try discriminate.
  - eauto.
  - destruct (IH b) as [r ->]; [lia | eauto].
Qed.

(** ** One step of the loop *)

Lemma step_inv fc fs t s s' :
  step fc fs t s = Some s' ->
  neuron s' = fst (grow_steer fc fs s) /\
  gen s' = snd (grow_steer fc fs s) /\
  coordinates s' = coordinates s ++ tip (neuron s') /\
  last_tiplength_fin s' = last_tiplength_fin s ++ [length (tip (neuron s'))] /\
  (exists rows,
      angle_list s' = angle_list s ++ rows /\
      map fst rows = map np_degrees (normalized fc fs s) /\
      map snd rows = map col3 (tip (neuron s')) /\
      length rows = length (tip (neuron s'))) /\
  aligned (neuron s') /\
  coords_until s' =
    (if (2 <? t)%nat
     then slice_but_last (np_sum (slice_last 2 (last_tiplength_fin s')))
                         (coordinates s')
     else coords_until s).
Proof.
  unfold step, normalized; intros H.
  destruct (grow_steer fc fs s) as [n2 g2]; simpl.
  destruct (column_stack _ _) as [rows|] eqn:E; [|discriminate].
  injection H as <-; simpl.
  destruct (column_stack_length _ _ _ E) as (L1 & L2 & F1 & F2).
  repeat rewrite length_map in L1; repeat rewrite length_map in L2.
  repeat split; auto.
  - exists rows; repeat split; auto; lia.
  - unfold aligned; lia.
Qed.

Lemma step_some fc fs t s :
  aligned (fst (grow_steer fc fs s)) -> exists s', step fc fs t s = Some s'.
Proof.
  unfold aligned, step; intros H.
  destruct (grow_steer fc fs s) as [n2 g2]; simpl in H.
  destruct (column_stack_some
              (map np_degrees (map normalize (angle n2)))
              (map col3 (tip n2))) as [rows ->]; eauto.
  repeat rewrite length_map; lia.
Qed.

Lemma grow_steer_aligned fc fs s :
  kernel_aligned -> aligned (neuron s) -> aligned (fst (grow_steer fc fs s)).
Proof.
  intros [HB HG] Ha; unfold grow_steer, Tissue_evolve, Tissue_guidance, aligned in *.
  specialize (HB (gen s) (prob (neuron s)) (tip (neuron s)) (angle (neuron s))
                 (coordinates s) (min_angle (neuron s)) (rad_termin (neuron s)) Ha).
  destruct (branching _ _ _ _ _ _ _) as [[tp1 an1] g1]; simpl in *.
  specialize (HG g1 tp1 an1 (coords_last s) (coords_until s) fc fs
                 (rad_avoid (neuron s)) HB).
  destruct (guidance_avoidance _ _ _ _ _ _ _ _) as [[tp2 an2] g2]; simpl in *.
  exact HG.
Qed.

Lemma iteration_continue fc fs t s s' :
  iteration fc fs t s = Continue s' ->
  active s = true /\ step fc fs t s = Some s' /\ active s' = true.
Proof.
  unfold iteration; destruct (active s) eqn:Ea.
  - destruct (step fc fs t s) as [s1|]; [|discriminate].
    destruct (length (tip (neuron s1)) =? 0)%nat eqn:E; [discriminate|].
    intros H; injection H as <-; repeat split; auto.
    unfold active; apply Nat.ltb_lt; apply Nat.eqb_neq in E; lia.
  - unfold active in Ea; apply Nat.ltb_ge in Ea.
    replace (length (tip (neuron s)) =? 0)%nat with true; [discriminate|].
    symmetry; apply Nat.eqb_eq; lia.
Qed.

Lemma iteration_break fc fs t s s' :
  iteration fc fs t s = Break s' ->
  active s' = false /\
  ((active s = true /\ step fc fs t s = Some s') \/ (active s = false /\ s' = s)).
Proof.
  unfold iteration; destruct (active s) eqn:Ea.
  - destruct (step fc fs t s) as [s1|]; [|discriminate].
    destruct (length (tip (neuron s1)) =? 0)%nat eqn:E; [|discriminate].
    intros H; injection H as <-; split; auto.
    unfold active; apply Nat.ltb_ge; apply Nat.eqb_eq in E; lia.
  - destruct (length (tip (neuron s)) =? 0)%nat; [|discriminate].
    intros H; injection H as <-; auto.
Qed.

Lemma iteration_raise fc fs t s :
  iteration fc fs t s = Raise -> active s = true /\ step fc fs t s = None.
Proof.
  unfold iteration; destruct (active s) eqn:Ea.
  - destruct (step fc fs t s) as [s1|]; auto.
    destruct (length (tip (neuron s1)) =? 0)%nat; discriminate.
  - destruct (length (tip (neuron s)) =? 0)%nat; discriminate.
Qed.

(** A property of the locals that every step keeps holds when the loop is
    left. *)
Lemma for_range_invariant (P : locals -> Prop) fc fs :
  (forall t s s', active s = true -> step fc fs t s = Some s' -> P s -> P s') ->
  forall n t s s', P s -> for_range fc fs t n s = Some s' -> P s'.
Proof.
  intros Hstep; induction n as [|n IH]; intros t s s' HP H; simpl in H.
  - injection H as <-; exact HP.
  - destruct (iteration fc fs t s) as [s1|s1|] eqn:E; [| |discriminate].
    + apply iteration_continue in E as (Ea & Es & _).
      eapply IH; [|exact H]; eauto.
    + injection H as <-.
      apply iteration_break in E as (_ & [[Ea Es]| [_ ->]]); eauto.
Qed.

(** With an aligned kernel no step raises, so the loop returns. *)
Lemma for_range_returns fc fs :
  kernel_aligned ->
  forall n t s, aligned (neuron s) -> exists s', for_range fc fs t n s = Some s'.
Proof.
  intros HK; induction n as [|n IH]; intros t s Ha; simpl; eauto.
  destruct (iteration fc fs t s) as [s1|s1|] eqn:E; eauto.
  - apply iteration_continue in E as (_ & Es & _).
    apply IH; apply step_inv in Es; tauto.
  - apply iteration_raise in E as (_ & Es).
    destruct (step_some fc fs t s) as [s1 E1];
      [apply grow_steer_aligned; auto | congruence].
Qed.

Lemma initial_aligned g p : aligned (neuron (initial g p)).
Proof. reflexivity. Qed.

Lemma simulation_loop_returns g p fc fs tmax :
  kernel_aligned -> exists d, simulation_loop g p fc fs tmax = Some d.
Proof.
  intros HK; unfold simulation_loop, final_locals.
  destruct (for_range_returns fc fs HK (Z.to_nat tmax) 0 (initial g p)
              (initial_aligned g p)) as [s ->].
  simpl; eauto.
Qed.

(** ** What the loop keeps true of the three histories *)

Lemma np_sum_snoc (l : list nat) (n : nat) : np_sum (l ++ [n]) = (np_sum l + n)%nat.
Proof. unfold np_sum; rewrite list_sum_app; simpl; lia. Qed.

Lemma histories_agree_initial g p : histories_agree (initial g p).
Proof. repeat split. Qed.

Lemma histories_agree_step fc fs t s s' :
  step fc fs t s = Some s' -> histories_agree s -> histories_agree s'.
Proof.
  intros H (I1 & I2 & I3 & I4).
  destruct (step_inv _ _ _ _ _ H) as (_ & _ & Hc & Hl & (rows & Ha & _ & _ & Hr) & _ & _).
  unfold histories_agree; rewrite Hc, Hl, Ha, np_sum_snoc, !length_app, last_last.
  repeat split; try lia.
  destruct (angle_list s); [discriminate | exact I4].
Qed.

Lemma histories_agree_final g p fc fs tmax s :
  final_locals g p fc fs tmax = Some s -> histories_agree s.
Proof.
  unfold final_locals; intros H.
  eapply for_range_invariant with (P := histories_agree); [| |exact H].
  - intros t s0 s1 _ Hs; eapply histories_agree_step; eauto.
  - apply histories_agree_initial.
Qed.

Lemma simulation_loop_final g p fc fs tmax d :
  simulation_loop g p fc fs tmax = Some d ->
  exists s, final_locals g p fc fs tmax = Some s /\ d = to_dict s.
Proof.
  unfold simulation_loop; destruct (final_locals g p fc fs tmax) as [s|];
    simpl; intros H; [|discriminate].
  injection H as <-; eauto.
Qed.

(** C1.  The entries of the active-count series of a returned record,
    the initial count with them, add up to the number of point records,
    the seed point with them; and with a kernel that keeps tips and
    headings aligned every call returns a record. *)
Theorem sum_evolve_eq_len_coordinates g p fc fs tmax :
  (forall d, simulation_loop g p fc fs tmax = Some d ->
             np_sum (d_evolve d) = length (d_coordinates d)) /\
  (kernel_aligned -> exists d, simulation_loop g p fc fs tmax = Some d).
Proof.
  split; [|apply simulation_loop_returns].
  intros d H; apply simulation_loop_final in H as (s & Hs & ->).
  apply histories_agree_final in Hs; simpl; apply Hs.
Qed.

(** C10.  The angle history and the point history of a returned record
    have the same length, the seed contributing one row to each; and with
    a kernel that keeps tips and headings aligned every call returns a
    record. *)
Theorem len_angles_eq_len_coordinates g p fc fs tmax :
  (forall d, simulation_loop g p fc fs tmax = Some d ->
             length (d_angles d) = length (d_coordinates d)) /\
  (kernel_aligned -> exists d, simulation_loop g p fc fs tmax = Some d).
Proof.
  split; [|apply simulation_loop_returns].
  intros d H; apply simulation_loop_final in H as (s & Hs & ->).
  apply histories_agree_final in Hs; simpl; apply Hs.
Qed.

(** C9.  With [tmax = 0] the call returns, without an exception, the
    record that holds the seed point alone, the seed's angle row alone
    and the initial count alone. *)
Theorem tmax_zero_returns_seed g p fc fs :
  simulation_loop g p fc fs 0 = Some seed_output.
Proof. reflexivity. Qed.

(** C3, as amended.  The driver checks none of its parameters: for
    [tmax <= 0], whatever [prob], [fc] and [fs] are, the call raises
    nothing and returns the seed-only record. *)
Theorem nonpositive_tmax_returns_seed g p fc fs tmax :
  (tmax <= 0)%Z -> simulation_loop g p fc fs tmax = Some seed_output.
Proof.
  intros H; destruct tmax as [|q|q]; [reflexivity| |reflexivity].
  pose proof (Pos2Z.is_pos q); lia.
Qed.

(** ** The length of the active-count series *)

Lemma last_in_nonempty (l : list nat) (d : nat) : l <> [] -> In (last l d) l.
Proof.
  induction l as [|x l IH]; [congruence|]; intros _.
  destruct l as [|y l]; [left; reflexivity|].
  right; apply IH; discriminate.
Qed.

Lemma for_range_steps fc fs n :
  forall t s s',
    for_range fc fs t n s = Some s' ->
    length (last_tiplength_fin s') =
      (length (last_tiplength_fin s) + steps_executed fc fs t n s)%nat /\
    (steps_executed fc fs t n s <= n)%nat /\
    (active s' = true -> steps_executed fc fs t n s = n).
Proof.
  induction n as [|n IH]; intros t s s' H; simpl in *.
  - injection H as <-; repeat split; lia.
  - destruct (iteration fc fs t s) as [s1|s1|] eqn:E; [| |discriminate].
    + apply iteration_continue in E as (Ea & Es & _); rewrite Ea.
      destruct (IH _ _ _ H) as (L1 & L2 & L3).
      destruct (step_inv _ _ _ _ _ Es) as (_ & _ & _ & Hl & _).
      rewrite Hl, length_app in L1; simpl in L1.
      repeat split; try lia.
      intros Hs'; rewrite (L3 Hs'); reflexivity.
    + injection H as <-.
      apply iteration_break in E as (Hn & [[Ea Es]| [Ea ->]]); rewrite Ea.
      * destruct (step_inv _ _ _ _ _ Es) as (_ & _ & _ & Hl & _).
        rewrite Hl, length_app; simpl.
        repeat split; try lia; congruence.
      * repeat split; try lia; congruence.
Qed.

(** C2, as amended.  The active-count series of a returned record starts
    with the initial count, so its length is one more than the number of
    steps executed and at most [tmax + 1]; it is [tmax + 1] when no step
    produced zero active tips. *)
Theorem len_evolve_eq_steps_plus_one g p fc fs tmax d :
  simulation_loop g p fc fs tmax = Some d ->
  length (d_evolve d) =
    S (steps_executed fc fs 0 (Z.to_nat tmax) (initial g p)) /\
  (length (d_evolve d) <= Z.to_nat tmax + 1)%nat /\
  (~ In 0%nat (d_evolve d) -> length (d_evolve d) = (Z.to_nat tmax + 1)%nat).
Proof.
  intros H; apply simulation_loop_final in H as (s & Hs & ->); simpl.
  pose proof (histories_agree_final _ _ _ _ _ _ Hs) as (_ & _ & Hlast & _).
  unfold final_locals in Hs.
  destruct (for_range_steps _ _ _ _ _ _ Hs) as (L1 & L2 & L3); simpl in L1.
  repeat split; try lia.
  intros Hnz; rewrite L1, L3; [lia|].
  unfold active; apply Nat.ltb_lt.
  assert (last (last_tiplength_fin s) 0%nat <> 0%nat); [|lia].
  intros Hz; apply Hnz; rewrite <- Hz; apply last_in_nonempty.
  intros Hnil; rewrite Hnil in L1; simpl in L1; lia.
Qed.

(** ** Units and range of the recorded headings *)

Lemma np_degrees_half_PI : np_degrees (PI / 2) = 90.
Proof. unfold np_degrees; field; apply PI_neq0. Qed.

Lemma half_PI_not_90 : PI / 2 <> 90.
Proof. pose proof PI_4; lra. Qed.

(** C4: what the code does.  The first row of the angle history of every
    returned record is the seed's, and its first component is the seed
    heading in radians, [pi/2], where the heading in degrees is [90]. *)
Theorem seed_angle_row_in_radians g p fc fs tmax d :
  simulation_loop g p fc fs tmax = Some d ->
  hd_error (d_angles d) = Some (PI / 2, 0) /\
  np_degrees (PI / 2) = 90 /\ PI / 2 <> 90.
Proof.
  intros H; apply simulation_loop_final in H as (s & Hs & ->); simpl.
  pose proof (histories_agree_final _ _ _ _ _ _ Hs) as (_ & _ & _ & Hhd).
  auto using np_degrees_half_PI, half_PI_not_90.
Qed.

Lemma np_mod_range (x y : R) : 0 < y -> 0 <= np_mod x y < y.
Proof.
  intros Hy; unfold np_mod.
  pose proof (Zfloor_bound (x / y)) as [Hlo Hhi].
  assert (Hx : x = x / y * y) by (field; lra).
  revert Hlo Hhi Hx; generalize (x / y) as q; intros q.
  generalize (IZR (Zfloor q)) as f; intros f Hlo Hhi Hx.
  rewrite Hx; split; nra.
Qed.

Lemma normalize_range (a : R) : - PI <= normalize a < PI.
Proof.
  unfold normalize.
  pose proof PI_RGT_0.
  pose proof (np_mod_range (a + PI) (2 * PI)) as [H1 H2]; lra.
Qed.

(** At a heading of [pi] the normalized heading is [-pi]. *)
Lemma normalize_PI : normalize PI = - PI.
Proof.
  unfold normalize, np_mod.
  pose proof PI_RGT_0.
  replace ((PI + PI) / (2 * PI)) with (IZR 1) by (field; lra).
  rewrite ZfloorZ; lra.
Qed.

(** The rows a step appends to the angle history hold the normalized
    headings of that step, in degrees. *)
Lemma step_records_normalized fc fs t s s' :
  step fc fs t s = Some s' ->
  exists rows,
    angle_list s' = angle_list s ++ rows /\
    map fst rows = map np_degrees (normalized fc fs s).
Proof.
  intros H; destruct (step_inv _ _ _ _ _ H)
    as (_ & _ & _ & _ & (rows & Ha & Hf & _) & _); eauto.
Qed.

(** C5, as amended.  At every step the normalized headings, computed
    after the guidance call, lie in the closed interval from [-pi] to
    [pi]. *)
Theorem normalized_within_closed_interval fc fs s :
  Forall (fun h => - PI <= h <= PI) (normalized fc fs s).
Proof.
  unfold normalized; apply Forall_forall; intros h Hin.
  apply in_map_iff in Hin as (a & <- & _).
  pose proof (normalize_range a); lra.
Qed.

(** ** After the last tip is gone *)

Lemma iteration_inactive fc fs t s :
  active s = false -> iteration fc fs t s = Break s.
Proof.
  unfold iteration; intros Ea; rewrite Ea.
  unfold active in Ea; apply Nat.ltb_ge in Ea.
  replace (length (tip (neuron s)) =? 0)%nat with true; [reflexivity|].
  symmetry; apply Nat.eqb_eq; lia.
Qed.

Lemma for_range_inactive fc fs t n s :
  active s = false ->
  for_range fc fs t n s = Some s /\ steps_executed fc fs t n s = 0%nat /\
  guidance_calls fc fs t n s = [].
Proof.
  intros Ea; destruct n as [|n]; simpl; auto.
  rewrite (iteration_inactive fc fs t s Ea), Ea; auto.
Qed.

(** A loop of [a + b] passes is a loop of [a] passes and then one of [b]. *)
Lemma for_range_app fc fs a b :
  forall t s,
    for_range fc fs t (a + b) s =
    match for_range fc fs t a s with
    | Some s1 => for_range fc fs (t + a) b s1
    | None => None
    end.
Proof.
  induction a as [|a IH]; intros t s; simpl.
  - rewrite Nat.add_0_r; reflexivity.
  - destruct (iteration fc fs t s) as [s1|s1|] eqn:E; auto.
    + rewrite IH, <- Nat.add_succ_comm; reflexivity.
    + apply iteration_break in E as (Hn & _).
      symmetry; apply for_range_inactive; exact Hn.
Qed.

Lemma steps_executed_app fc fs a b :
  forall t s,
    steps_executed fc fs t (a + b) s =
    (steps_executed fc fs t a s +
     match for_range fc fs t a s with
     | Some s1 => steps_executed fc fs (t + a) b s1
     | None => 0
     end)%nat.
Proof.
  induction a as [|a IH]; intros t s; simpl.
  - rewrite Nat.add_0_r; reflexivity.
  - destruct (iteration fc fs t s) as [s1|s1|] eqn:E.
    + rewrite IH, <- Nat.add_succ_comm; lia.
    + apply iteration_break in E as (Hn & _).
      destruct (for_range_inactive fc fs (t + S a) b s1 Hn) as (_ & -> & _); lia.
    + lia.
Qed.

(** C8.  Once a run has left the loop with no active tip, a longer
    horizon changes nothing: the loop is left, without an exception, with
    the same locals, so the same three histories are returned, and the
    guarded block, with its calls of evolve and guidance, runs no further
    time. *)
Theorem stopped_run_is_final g p fc fs tmax tmax' s :
  final_locals g p fc fs tmax = Some s ->
  tip (neuron s) = [] ->
  (tmax <= tmax')%Z ->
  final_locals g p fc fs tmax' = Some s /\
  simulation_loop g p fc fs tmax' = Some (to_dict s) /\
  steps_executed fc fs 0 (Z.to_nat tmax') (initial g p) =
  steps_executed fc fs 0 (Z.to_nat tmax) (initial g p).
Proof.
  intros Hs Hnil Hle.
  assert (Ea : active s = false) by (unfold active; rewrite Hnil; reflexivity).
  assert (Hn : Z.to_nat tmax' = (Z.to_nat tmax + (Z.to_nat tmax' - Z.to_nat tmax))%nat)
    by lia.
  unfold simulation_loop, final_locals in *.
  rewrite Hn, for_range_app, steps_executed_app, Hs.
  destruct (for_range_inactive fc fs (0 + Z.to_nat tmax)
              (Z.to_nat tmax' - Z.to_nat tmax) s Ea) as (-> & -> & _).
  simpl; repeat split; lia.
Qed.

(** ** The stable window *)

Lemma prefix_refl {A : Type} (l : list A) : prefix l l.
Proof. exists []; rewrite app_nil_r; reflexivity. Qed.

Lemma prefix_trans {A : Type} (l1 l2 l3 : list A) :
  prefix l1 l2 -> prefix l2 l3 -> prefix l1 l3.
Proof.
  intros [r1 ->] [r2 ->]; exists (r1 ++ r2); rewrite app_assoc; reflexivity.
Qed.

Lemma prefix_app {A : Type} (l r : list A) : prefix l (l ++ r).
Proof. exists r; reflexivity. Qed.

Lemma prefix_nil {A : Type} (l : list A) : prefix [] l.
Proof. exists l; reflexivity. Qed.

Lemma slice_last_two (l : list nat) (a b : nat) :
  slice_last 2 (l ++ [a; b]) = [a; b].
Proof.
  unfold slice_last; simpl.
  rewrite length_app; simpl.
  replace (length l + 2 - 2)%nat with (length l + 0)%nat by lia.
  rewrite skipn_app, Nat.add_0_r, skipn_all, Nat.sub_diag; reflexivity.
Qed.

Lemma slice_but_last_app {A : Type} (h n : list A) :
  prefix (slice_but_last (length n) (h ++ n)) h.
Proof.
  unfold slice_but_last; destruct (length n =? 0)%nat; [apply prefix_nil|].
  rewrite length_app, Nat.add_sub, firstn_app, Nat.sub_diag, firstn_all.
  simpl; rewrite app_nil_r; apply prefix_refl.
Qed.

Lemma window_initial g p :
  window 0 (initial g p) (coordinates (initial g p)) (coordinates (initial g p)).
Proof.
  split; [apply prefix_refl|].
  exists [], []; simpl; repeat split; intros; lia.
Qed.

Lemma window_step fc fs t s s' h2 h1 :
  window t s h2 h1 -> step fc fs t s = Some s' ->
  window (S t) s' h1 (coordinates s).
Proof.
  intros (Hu & n2 & n1 & E1 & E2 & W1 & W2) Hs.
  destruct (step_inv _ _ _ _ _ Hs) as (_ & _ & Hc & Hl & _ & _ & Hcu).
  set (new := tip (neuron s')) in *.
  split.
  - rewrite Hcu; destruct (2 <? t)%nat eqn:Et.
    + apply Nat.ltb_lt in Et.
      destruct W1 as [l El]; [lia|].
      rewrite Hl, El, <- app_assoc; simpl; rewrite slice_last_two.
      unfold np_sum; simpl; rewrite Nat.add_0_r, <- length_app.
      rewrite Hc, E2, <- app_assoc; apply slice_but_last_app.
    + eapply prefix_trans; [exact Hu|]; rewrite E1; apply prefix_app.
  - exists n1, new; repeat split; auto.
    + intros _; exists (last_tiplength_fin s); exact Hl.
    + intros Ht; destruct W1 as [l El]; [lia|].
      exists l; rewrite Hl, El, <- app_assoc; reflexivity.
Qed.

(** The state at a call of guidance is the one the loop reaches after as
    many passes as the loop index of the call, and it has active tips. *)
Lemma in_guidance_calls fc fs n :
  forall t s k sk,
    In (k, sk) (guidance_calls fc fs t n s) ->
    exists a, k = (t + a)%nat /\ (a < n)%nat /\
              for_range fc fs t a s = Some sk /\ active sk = true.
Proof.
  induction n as [|n IH]; intros t s k sk Hin; simpl in Hin; [contradiction|].
  apply in_app_or in Hin as [Hin|Hin].
  - destruct (active s) eqn:Ea; [|contradiction].
    destruct Hin as [Heq|[]]; injection Heq as <- <-.
    exists 0%nat; repeat split; auto; lia.
  - destruct (iteration fc fs t s) as [s1|s1|] eqn:E; try contradiction.
    destruct (IH _ _ _ _ Hin) as (a & -> & Ha & Hr & Hk).
    exists (S a); simpl; rewrite E; repeat split; auto; lia.
Qed.

(** A state with active tips reached after [a + 1] passes comes by one step
    from a state with active tips reached after [a] passes. *)
Lemma for_range_last_step fc fs t a s s' :
  for_range fc fs t (S a) s = Some s' -> active s' = true ->
  exists s1, for_range fc fs t a s = Some s1 /\ active s1 = true /\
             step fc fs (t + a) s1 = Some s'.
Proof.
  replace (S a) with (a + 1)%nat by lia; rewrite for_range_app.
  destruct (for_range fc fs t a s) as [s1|]; [|discriminate].
  simpl; intros H Ha.
  destruct (iteration fc fs (t + a) s1) as [s2|s2|] eqn:E; [| |discriminate];
    injection H as ->.
  - apply iteration_continue in E as (E1 & E2 & _); exists s1; repeat split; auto.
  - apply iteration_break in E as (E1 & _); congruence.
Qed.

(** The point history only grows. *)
Lemma coordinates_grow fc fs t n s s' :
  for_range fc fs t n s = Some s' -> prefix (coordinates s) (coordinates s').
Proof.
  apply for_range_invariant with (P := fun x => prefix (coordinates s) (coordinates x)).
  - intros t0 s0 s1 _ Hs Hp.
    destruct (step_inv _ _ _ _ _ Hs) as (_ & _ & Hc & _).
    eapply prefix_trans; [exact Hp|]; rewrite Hc; apply prefix_app.
  - apply prefix_refl.
Qed.

Lemma coordinates_grow_between fc fs a b s sa sb :
  (a <= b)%nat ->
  for_range fc fs 0 a s = Some sa -> for_range fc fs 0 b s = Some sb ->
  prefix (coordinates sa) (coordinates sb).
Proof.
  intros Hle Ha Hb.
  replace b with (a + (b - a))%nat in Hb by lia.
  rewrite for_range_app, Ha in Hb.
  eapply coordinates_grow; exact Hb.
Qed.

(** At the head of every pass that runs the guarded block, the stable
    window lies within the point history of two passes earlier. *)
Lemma window_reached g p fc fs a :
  forall s,
    for_range fc fs 0 a (initial g p) = Some s -> active s = true ->
    exists s2 s1,
      for_range fc fs 0 (a - 2) (initial g p) = Some s2 /\
      for_range fc fs 0 (a - 1) (initial g p) = Some s1 /\
      window a s (coordinates s2) (coordinates s1).
Proof.
  induction a as [|a IH]; intros s Hr Ha.
  - simpl in Hr; injection Hr as <-.
    exists (initial g p), (initial g p).
    split; [reflexivity | split; [reflexivity | apply window_initial]].
  - destruct (for_range_last_step _ _ _ _ _ _ Hr Ha) as (s0 & Hr0 & Ha0 & Hs).
    destruct (IH _ Hr0 Ha0) as (s2 & s1 & _ & Hr1 & Hw).
    exists s1, s0; split; [|split].
    + replace (S a - 2)%nat with (a - 1)%nat by lia; exact Hr1.
    + replace (S a - 1)%nat with a by lia; exact Hr0.
    + eapply window_step; eauto.
Qed.

(** C7.  The stable-history slice handed to guidance at step [t] is an
    initial segment of the point history as it stood at the guidance call
    of step [t'], for [t'] any of [t - 2], [t - 1] and [t]: it holds no
    point record appended during the two steps executed before step [t]. *)
Theorem coords_until_excludes_last_two_steps g p fc fs tmax t s t' s' :
  In (t, s) (guidance_calls fc fs 0 (Z.to_nat tmax) (initial g p)) ->
  In (t', s') (guidance_calls fc fs 0 (Z.to_nat tmax) (initial g p)) ->
  (t' <= t <= t' + 2)%nat ->
  prefix (coords_until s) (coordinates s').
Proof.
  intros Hin Hin' Ht.
  apply in_guidance_calls in Hin as (a & -> & _ & Hr & Ha).
  apply in_guidance_calls in Hin' as (a' & -> & _ & Hr' & _).
  simpl in Ht.
  destruct (window_reached _ _ _ _ _ _ Hr Ha) as (s2 & _ & Hr2 & _ & Hw & _).
  eapply prefix_trans; [exact Hw|].
  eapply coordinates_grow_between; [|exact Hr2|exact Hr']; lia.
Qed.

(** ** The two windows handed to guidance *)

Lemma slice_last_one (l : list nat) (a : nat) : slice_last 1 (l ++ [a]) = [a].
Proof.
  unfold slice_last; simpl.
  rewrite length_app; simpl.
  replace (length l + 1 - 1)%nat with (length l + 0)%nat by lia.
  rewrite skipn_app, Nat.add_0_r, skipn_all, Nat.sub_diag; reflexivity.
Qed.

Lemma slice_last_app {A : Type} (h n : list A) :
  n <> [] -> slice_last (length n) (h ++ n) = n.
Proof.
  intros Hn; unfold slice_last.
  destruct n as [|x n]; [congruence|]; simpl length at 1; cbv iota beta.
  replace (S (length n) =? 0)%nat with false by reflexivity.
  rewrite length_app, Nat.add_sub, skipn_app, skipn_all, Nat.sub_diag.
  reflexivity.
Qed.

Lemma slice_but_last_exact {A : Type} (h n : list A) :
  n <> [] -> slice_but_last (length n) (h ++ n) = h.
Proof.
  intros Hn; unfold slice_but_last.
  destruct n as [|x n]; [congruence|].
  replace (length (x :: n) =? 0)%nat with false by reflexivity.
  rewrite length_app, Nat.add_sub, firstn_app, Nat.sub_diag, firstn_all.
  simpl; apply app_nil_r.
Qed.

Lemma step_coords_last fc fs t s s' :
  step fc fs t s = Some s' ->
  coords_last s' =
  slice_last (length (tip (neuron s'))) (coordinates s ++ tip (neuron s')).
Proof.
  unfold step; intros H.
  destruct (grow_steer fc fs s) as [n2 g2].
  destruct (column_stack _ _) as [rows|]; [|discriminate].
  injection H as <-; simpl.
  rewrite slice_last_one; unfold np_sum; simpl; rewrite Nat.add_0_r.
  reflexivity.
Qed.

Lemma active_tip_nonempty s : active s = true -> tip (neuron s) <> [].
Proof.
  unfold active; intros H Hnil; rewrite Hnil in H; discriminate.
Qed.

(** X2.  The first call of guidance receives an empty recent window.
    Every later call, at step [t], receives as recent window exactly the
    rows that step [t - 1] appended to the point history; they are the tip
    array as it stood at the head of step [t], before the evolve call of
    that step. *)
Theorem coords_last_is_previous_step g p fc fs tmax t s :
  In (t, s) (guidance_calls fc fs 0 (Z.to_nat tmax) (initial g p)) ->
  (t = 0%nat -> coords_last s = []) /\
  ((1 <= t)%nat ->
   coords_last s = tip (neuron s) /\
   forall s1,
     In ((t - 1)%nat, s1) (guidance_calls fc fs 0 (Z.to_nat tmax) (initial g p)) ->
     coordinates s = coordinates s1 ++ coords_last s).
Proof.
  intros Hin.
  apply in_guidance_calls in Hin as (a & -> & _ & Hr & Ha); simpl.
  split.
  - intros ->; simpl in Hr; injection Hr as <-; reflexivity.
  - intros Ht; destruct a as [|a]; [lia|].
    destruct (for_range_last_step _ _ _ _ _ _ Hr Ha) as (s1 & Hr1 & _ & Hs).
    pose proof (step_coords_last _ _ _ _ _ Hs) as Hl.
    destruct (step_inv _ _ _ _ _ Hs) as (_ & _ & Hc & _).
    rewrite slice_last_app in Hl by (apply active_tip_nonempty; exact Ha).
    split; [exact Hl|].
    intros s0 Hin0.
    apply in_guidance_calls in Hin0 as (a0 & E0 & _ & Hr0 & _).
    simpl in E0; replace a0 with a in Hr0 by lia.
    rewrite Hr1 in Hr0; injection Hr0 as <-.
    rewrite Hl; exact Hc.
Qed.

(** X3.  When a step leaves no active tip, it appends nothing to the
    point history and the recent window becomes the whole point history,
    because [coordinates[-0:]] is the whole array. *)
Theorem coords_last_after_annihilation fc fs t s s' :
  step fc fs t s = Some s' ->
  tip (neuron s') = [] ->
  coordinates s' = coordinates s /\ coords_last s' = coordinates s'.
Proof.
  intros Hs Hnil.
  pose proof (step_coords_last _ _ _ _ _ Hs) as Hl.
  destruct (step_inv _ _ _ _ _ Hs) as (_ & _ & Hc & _).
  rewrite Hnil in *; rewrite app_nil_r in *.
  split; [exact Hc|].
  rewrite Hl, Hc; reflexivity.
Qed.

Lemma coords_until_seed_reached g p fc fs a :
  forall s,
    for_range fc fs 0 a (initial g p) = Some s -> active s = true ->
    (a <= 3)%nat -> coords_until s = [seed_row].
Proof.
  induction a as [|a IH]; intros s Hr Ha Hle.
  - simpl in Hr; injection Hr as <-; reflexivity.
  - destruct (for_range_last_step _ _ _ _ _ _ Hr Ha) as (s1 & Hr1 & Ha1 & Hs).
    destruct (step_inv _ _ _ _ _ Hs) as (_ & _ & _ & _ & _ & _ & Hcu).
    simpl in Hcu.
    replace (2 <? a)%nat with false in Hcu
      by (symmetry; apply Nat.ltb_ge; lia).
    rewrite Hcu; apply IH; auto; lia.
Qed.

(** X4.  At each of the first four steps (loop indices 0 to 3) the
    stable window handed to guidance is the seed point alone. *)
Theorem coords_until_is_seed_at_first g p fc fs tmax t s :
  In (t, s) (guidance_calls fc fs 0 (Z.to_nat tmax) (initial g p)) ->
  (t <= 3)%nat -> coords_until s = [seed_row].
Proof.
  intros Hin Ht.
  apply in_guidance_calls in Hin as (a & -> & _ & Hr & Ha); simpl in Ht.
  eapply coords_until_seed_reached; eauto.
Qed.

(** X5.  From the fifth step on (loop index 4 and beyond) the stable
    window handed to guidance at step [t] is exactly the point history as
    it stood at the guidance call of step [t - 2]. *)
Theorem coords_until_is_history_two_steps_back g p fc fs tmax t s s0 :
  In (t, s) (guidance_calls fc fs 0 (Z.to_nat tmax) (initial g p)) ->
  In ((t - 2)%nat, s0) (guidance_calls fc fs 0 (Z.to_nat tmax) (initial g p)) ->
  (4 <= t)%nat -> coords_until s = coordinates s0.
Proof.
  intros Hin Hin0 Ht.
  apply in_guidance_calls in Hin as (a & -> & _ & Hr & Ha).
  apply in_guidance_calls in Hin0 as (a0 & E0 & _ & Hr0 & _).
  simpl in *; subst a0.
  destruct a as [|[|a]]; try lia.
  destruct (for_range_last_step _ _ _ _ _ _ Hr Ha) as (s1 & Hr1 & Ha1 & Hs).
  destruct (for_range_last_step _ _ _ _ _ _ Hr1 Ha1) as (s2 & Hr2 & _ & Hs1).
  replace (S (S a) - 2)%nat with a in Hr0 by lia.
  rewrite Hr2 in Hr0; injection Hr0 as <-.
  destruct (step_inv _ _ _ _ _ Hs) as (_ & _ & Hc & Hl & _ & _ & Hcu).
  destruct (step_inv _ _ _ _ _ Hs1) as (_ & _ & Hc1 & Hl1 & _).
  simpl in Hcu.
  replace (2 <? S a)%nat with true in Hcu
    by (symmetry; apply Nat.ltb_lt; lia).
  rewrite Hcu, Hl, Hl1, <- app_assoc; simpl; rewrite slice_last_two.
  unfold np_sum; simpl; rewrite Nat.add_0_r, <- length_app.
  rewrite Hc, Hc1, <- app_assoc.
  apply slice_but_last_exact.
  intros Hnil; apply app_eq_nil in Hnil as [_ Hnil].
  apply (active_tip_nonempty _ Ha); exact Hnil.
Qed.

(** ** Histories that only grow *)

Lemma histories_grow fc fs t n s s' :
  for_range fc fs t n s = Some s' ->
  prefix (coordinates s) (coordinates s') /\
  prefix (angle_list s) (angle_list s') /\
  prefix (last_tiplength_fin s) (last_tiplength_fin s').
Proof.
  apply for_range_invariant
    with (P := fun x => prefix (coordinates s) (coordinates x) /\
                        prefix (angle_list s) (angle_list x) /\
                        prefix (last_tiplength_fin s) (last_tiplength_fin x)).
  - intros t0 s0 s1 _ Hs (P1 & P2 & P3).
    destruct (step_inv _ _ _ _ _ Hs)
      as (_ & _ & Hc & Hl & (rows & Hr & _) & _).
    rewrite Hc, Hl, Hr.
    repeat split; (eapply prefix_trans; [eassumption | apply prefix_app]).
  - repeat split; apply prefix_refl.
Qed.

(** X6.  A longer horizon only appends: with the same generator state
    and parameters, the three histories returned for [tmax] are initial
    segments of those returned for any [tmax' >= tmax]. *)
Theorem longer_horizon_extends_histories g p fc fs tmax tmax' d d' :
  simulation_loop g p fc fs tmax = Some d ->
  simulation_loop g p fc fs tmax' = Some d' ->
  (tmax <= tmax')%Z ->
  prefix (d_coordinates d) (d_coordinates d') /\
  prefix (d_angles d) (d_angles d') /\
  prefix (d_evolve d) (d_evolve d').
Proof.
  intros H H' Hle.
  apply simulation_loop_final in H as (s & Hs & ->).
  apply simulation_loop_final in H' as (s' & Hs' & ->).
  unfold final_locals in *.
  replace (Z.to_nat tmax') with (Z.to_nat tmax + (Z.to_nat tmax' - Z.to_nat tmax))%nat
    in Hs' by lia.
  rewrite for_range_app, Hs in Hs'.
  apply histories_grow in Hs'; exact Hs'.
Qed.

(** ** The rows the steps append *)

Lemma np_degrees_bounds (h : R) :
  - PI <= h <= PI -> -180 <= np_degrees h <= 180.
Proof.
  intros [Hlo Hhi]; unfold np_degrees.
  pose proof PI_RGT_0 as Hpi.
  assert (Hk : 0 < 180 / PI) by (apply Rdiv_lt_0_compat; lra).
  assert (E : PI * (180 / PI) = 180) by (field; lra).
  split; nra.
Qed.

Lemma tl_app_nonempty {A : Type} (l r : list A) : l <> [] -> tl (l ++ r) = tl l ++ r.
Proof. destruct l; [congruence | reflexivity]. Qed.

Lemma step_rows_agree_initial g p : step_rows_agree (initial g p).
Proof.
  unfold step_rows_agree; simpl; repeat split; auto; discriminate.
Qed.

Lemma step_rows_agree_step fc fs t s s' :
  active s = true -> step fc fs t s = Some s' ->
  histories_agree s /\ step_rows_agree s ->
  histories_agree s' /\ step_rows_agree s'.
Proof.
  intros Ha Hs [Hh (R1 & R2 & R3 & N1 & N2 & N3)].
  split; [eapply histories_agree_step; eauto|].
  destruct Hh as (_ & _ & Hlast & _).
  destruct (step_inv _ _ _ _ _ Hs)
    as (_ & _ & Hc & Hl & (rows & Hr & Hf & Hsn & _) & _).
  unfold step_rows_agree; rewrite Hc, Hl, Hr.
  rewrite !tl_app_nonempty, !map_app, removelast_last by assumption.
  repeat split.
  - rewrite R1, Hsn; reflexivity.
  - apply Forall_app; split; [exact R2|].
    apply Forall_forall; intros r Hin.
    assert (Hfst : In (fst r) (map fst rows)) by (apply in_map; exact Hin).
    rewrite Hf in Hfst; apply in_map_iff in Hfst as (h & <- & Hh).
    apply np_degrees_bounds.
    unfold normalized in Hh; apply in_map_iff in Hh as (a & <- & _).
    pose proof (normalize_range a); lra.
  - rewrite (app_removelast_last 0%nat N3).
    apply Forall_app; split; [exact R3|].
    constructor; [|constructor].
    rewrite Hlast; unfold active in Ha; apply Nat.ltb_lt in Ha; exact Ha.
  - intros H; apply app_eq_nil in H as [H _]; auto.
  - intros H; apply app_eq_nil in H as [H _]; auto.
  - intros H; apply app_eq_nil in H as [_ H]; discriminate.
Qed.

Lemma step_rows_agree_final g p fc fs tmax s :
  final_locals g p fc fs tmax = Some s -> step_rows_agree s.
Proof.
  unfold final_locals; intros H.
  apply (for_range_invariant
           (fun x => histories_agree x /\ step_rows_agree x) fc fs)
    with (s' := s) in H.
  - apply H.
  - intros t s0 s1 Ha Hs HP; eapply step_rows_agree_step; eauto.
  - split; [apply histories_agree_initial | apply step_rows_agree_initial].
Qed.

(** X7.  In a returned record only the last entry of the active-count
    series can be zero: every entry before the last is positive. *)
Theorem zero_count_only_last g p fc fs tmax d :
  simulation_loop g p fc fs tmax = Some d ->
  Forall (fun k => (0 < k)%nat) (removelast (d_evolve d)).
Proof.
  intros H; apply simulation_loop_final in H as (s & Hs & ->); simpl.
  apply step_rows_agree_final in Hs; apply Hs.
Qed.

(** X8.  After the seed row the angle history is index-aligned with the
    point history: the second component of row [i] of [angles] is the last
    column of row [i] of [coordinates], for every [i >= 1]. *)
Theorem angles_generation_matches_coordinates g p fc fs tmax d :
  simulation_loop g p fc fs tmax = Some d ->
  map snd (tl (d_angles d)) = map col3 (tl (d_coordinates d)).
Proof.
  intros H; apply simulation_loop_final in H as (s & Hs & ->); simpl.
  apply step_rows_agree_final in Hs; apply Hs.
Qed.

(** X9.  Every row of the returned angle history after the seed row has
    its first component, a heading in degrees, between -180 and 180. *)
Theorem recorded_degrees_within_half_turn g p fc fs tmax d :
  simulation_loop g p fc fs tmax = Some d ->
  Forall (fun r => -180 <= fst r <= 180) (tl (d_angles d)).
Proof.
  intros H; apply simulation_loop_final in H as (s & Hs & ->); simpl.
  apply step_rows_agree_final in Hs; apply Hs.
Qed.

(** ** The counts, step by step *)

Lemma nth_error_last_entry (l : list nat) (d : nat) :
  l <> [] -> nth_error l (length l - 1) = Some (last l d).
Proof.
  induction l as [|x l IH]; [congruence|]; intros _.
  destruct l as [|y l]; [reflexivity|].
  assert (H : y :: l <> []) by discriminate.
  specialize (IH H); simpl in IH; rewrite Nat.sub_0_r in IH.
  simpl; exact IH.
Qed.

Lemma histories_agree_reached g p fc fs a s :
  for_range fc fs 0 a (initial g p) = Some s -> histories_agree s.
Proof.
  intros H.
  eapply for_range_invariant with (P := histories_agree); [| |exact H].
  - intros t s0 s1 _ Hs; eapply histories_agree_step; eauto.
  - apply histories_agree_initial.
Qed.

Lemma guidance_calls_length fc fs n :
  forall t s,
    length (guidance_calls fc fs t n s) = steps_executed fc fs t n s.
Proof.
  induction n as [|n IH]; intros t s; simpl; [reflexivity|].
  destruct (active s) eqn:Ea.
  - destruct (iteration fc fs t s) as [s1|s1|] eqn:E; simpl;
      [rewrite IH|..]; reflexivity.
  - rewrite (iteration_inactive fc fs t s Ea); reflexivity.
Qed.

(** In a run that returns, the step of every pass that ran the guarded
    block completed, and the counts it left are kept to the end. *)
Lemma call_step_completes fc fs n s0 sf t s :
  for_range fc fs 0 n s0 = Some sf ->
  In (t, s) (guidance_calls fc fs 0 n s0) ->
  exists s1,
    step fc fs t s = Some s1 /\
    prefix (last_tiplength_fin s1) (last_tiplength_fin sf).
Proof.
  intros Hf Hin.
  apply in_guidance_calls in Hin as (a & -> & Hlt & Hr & Ha); simpl.
  replace n with (a + S (n - a - 1))%nat in Hf by lia.
  rewrite for_range_app, Hr in Hf; simpl in Hf.
  destruct (iteration fc fs a s) as [s1|s1|] eqn:E; [| |discriminate].
  - apply iteration_continue in E as (_ & Es & _).
    exists s1; split; [exact Es|].
    apply histories_grow in Hf; apply Hf.
  - injection Hf as <-.
    apply iteration_break in E as (_ & [[_ Es]|[Ea' _]]); [|congruence].
    exists s1; split; [exact Es | apply prefix_refl].
Qed.

(** X10.  The returned active-count series has one entry more than
    there were executed steps.  For every executed step [t], entry [t] is
    the number of tips at the head of the step, before its evolve call
    (entry 0 counts the seed tip), and entry [t + 1] is the number of tips
    the guidance call of the step handed back. *)
Theorem evolve_entry_is_tip_count g p fc fs tmax d :
  simulation_loop g p fc fs tmax = Some d ->
  length (d_evolve d) =
    S (length (guidance_calls fc fs 0 (Z.to_nat tmax) (initial g p))) /\
  forall t s,
    In (t, s) (guidance_calls fc fs 0 (Z.to_nat tmax) (initial g p)) ->
    nth_error (d_evolve d) t = Some (length (tip (neuron s))) /\
    nth_error (d_evolve d) (S t) =
      Some (length (tip (fst (grow_steer fc fs s)))).
Proof.
  intros H.
  apply simulation_loop_final in H as (sf & Hf & ->); simpl.
  unfold final_locals in Hf.
  split.
  - rewrite guidance_calls_length.
    destruct (for_range_steps _ _ _ _ _ _ Hf) as (L1 & _); simpl in L1.
    exact L1.
  - intros t s Hin.
    destruct (call_step_completes _ _ _ _ _ _ _ Hf Hin) as (s1 & Hs & [rest Hp]).
    apply in_guidance_calls in Hin as (a & -> & Hlt & Hr & Ha); simpl.
    destruct (for_range_steps _ _ _ _ _ _ Hr) as (L1 & _ & L3).
    rewrite (L3 Ha) in L1; simpl in L1.
    pose proof (histories_agree_reached _ _ _ _ _ _ Hr) as (_ & _ & Hlast & _).
    destruct (step_inv _ _ _ _ _ Hs) as (Hn & _ & _ & Hl & _).
    rewrite Hp, Hl, <- Hn, <- app_assoc.
    split.
    + rewrite nth_error_app1 by lia.
      replace a with (length (last_tiplength_fin s) - 1)%nat at 1 by lia.
      rewrite (nth_error_last_entry _ 0%nat), Hlast; [reflexivity|].
      intros Hnil; rewrite Hnil in L1; simpl in L1; lia.
    + change (nth_error (last_tiplength_fin s ++
                         [length (tip (neuron s1))] ++ rest) (S a) =
              Some (length (tip (neuron s1)))).
      rewrite nth_error_app2 by lia.
      replace (S a - length (last_tiplength_fin s))%nat with 0%nat by lia.
      reflexivity.
Qed.

(** X11.  The calls of evolve and guidance happen at the loop indices
    0, 1, 2, ... without a gap, one for each executed step. *)
Theorem guidance_call_indices fc fs n :
  forall t s,
    map fst (guidance_calls fc fs t n s) = seq t (steps_executed fc fs t n s).
Proof.
  induction n as [|n IH]; intros t s; simpl; [reflexivity|].
  destruct (active s) eqn:Ea.
  - destruct (iteration fc fs t s) as [s1|s1|] eqn:E; simpl;
      [rewrite IH|..]; reflexivity.
  - rewrite (iteration_inactive fc fs t s Ea); reflexivity.
Qed.

(** ** When the call raises *)

Lemma column_stack_none (a b : list R) :
  column_stack a b = None <-> length a <> length b.
Proof.
  split.
  - intros H E; destruct (column_stack_some a b E) as [rows Hr]; congruence.
  - intros H; destruct (column_stack a b) as [rows|] eqn:E; [|reflexivity].
    apply column_stack_length in E as (_ & E & _); contradiction.
Qed.

Lemma step_none fc fs t s :
  step fc fs t s = None <->
  length (angle (fst (grow_steer fc fs s))) <>
  length (tip (fst (grow_steer fc fs s))).
Proof.
  unfold step; destruct (grow_steer fc fs s) as [n2 g2]; simpl.
  rewrite <- (length_map normalize (angle n2)).
  rewrite <- (length_map np_degrees (map normalize (angle n2))).
  rewrite <- (length_map col3 (tip n2)).
  rewrite <- column_stack_none.
  destruct (column_stack _ _); split; intros; congruence.
Qed.

Lemma for_range_none fc fs n :
  forall t s,
    for_range fc fs t n s = None <->
    exists k sk, In (k, sk) (guidance_calls fc fs t n s) /\
                 step fc fs k sk = None.
Proof.
  induction n as [|n IH]; intros t s; simpl.
  - split; [discriminate | intros (k & sk & [] & _)].
  - destruct (iteration fc fs t s) as [s1|s1|] eqn:E.
    + apply iteration_continue in E as (Ea & Es & _); rewrite Ea, IH.
      split; intros (k & sk & Hin & Hn); exists k, sk; split; auto.
      * right; exact Hin.
      * destruct Hin as [Heq|Hin]; [|exact Hin].
        injection Heq as <- <-; congruence.
    + apply iteration_break in E as (_ & [[Ea Es]|[Ea _]]); rewrite Ea;
        (split; [discriminate|]); intros (k & sk & Hin & Hn); simpl in Hin.
      * destruct Hin as [Heq|[]]; injection Heq as <- <-; congruence.
      * contradiction.
    + apply iteration_raise in E as (Ea & Es); rewrite Ea.
      split; [|reflexivity]; intros _.
      exists t, s; split; [left; reflexivity | exact Es].
Qed.

(** X12.  A kernel result whose heading array and tip array differ in
    length is never recorded: if that happens at some executed step, the
    call raises (the [ValueError] of [np.column_stack]) and returns no
    record. *)
Theorem misaligned_kernel_output_raises g p fc fs tmax t s :
  In (t, s) (guidance_calls fc fs 0 (Z.to_nat tmax) (initial g p)) ->
  length (angle (fst (grow_steer fc fs s))) <>
  length (tip (fst (grow_steer fc fs s))) ->
  simulation_loop g p fc fs tmax = None.
Proof.
  intros Hin Hn; unfold simulation_loop, final_locals.
  replace (for_range fc fs 0 (Z.to_nat tmax) (initial g p)) with (@None locals);
    [reflexivity|].
  symmetry; apply for_range_none.
  exists t, s; split; [exact Hin | apply (proj2 (step_none fc fs t s) Hn)].
Qed.

(** ** A kernel that keeps the number of tips *)

Lemma grow_steer_keeps_count fc fs s :
  kernel_keeps_count ->
  length (tip (fst (grow_steer fc fs s))) = length (tip (neuron s)) /\
  length (angle (fst (grow_steer fc fs s))) = length (angle (neuron s)).
Proof.
  intros [HB HG]; unfold grow_steer, Tissue_evolve, Tissue_guidance.
  specialize (HB (gen s) (prob (neuron s)) (tip (neuron s)) (angle (neuron s))
                 (coordinates s) (min_angle (neuron s)) (rad_termin (neuron s))).
  destruct (branching _ _ _ _ _ _ _) as [[tp1 an1] g1]; simpl in *.
  specialize (HG g1 tp1 an1 (coords_last s) (coords_until s) fc fs
                 (rad_avoid (neuron s))).
  destruct (guidance_avoidance _ _ _ _ _ _ _ _) as [[tp2 an2] g2]; simpl in *.
  lia.
Qed.

Lemma for_range_keeps_count fc fs n :
  kernel_keeps_count ->
  forall t s,
    length (tip (neuron s)) = 1%nat -> length (angle (neuron s)) = 1%nat ->
    exists s',
      for_range fc fs t n s = Some s' /\
      last_tiplength_fin s' = last_tiplength_fin s ++ repeat 1%nat n.
Proof.
  intros HK; induction n as [|n IH]; intros t s Ht Han; simpl.
  - exists s; rewrite app_nil_r; auto.
  - destruct (grow_steer_keeps_count fc fs s HK) as [K1 K2].
    destruct (step_some fc fs t s) as [s1 Hs]; [unfold aligned; lia|].
    destruct (step_inv _ _ _ _ _ Hs) as (Hn & _ & _ & Hl & _).
    assert (Ht1 : length (tip (neuron s1)) = 1%nat) by (rewrite Hn; lia).
    assert (Ha1 : length (angle (neuron s1)) = 1%nat) by (rewrite Hn; lia).
    unfold iteration, active; rewrite Ht.
    change (0 <? 1)%nat with true; cbv iota; rewrite Hs, Ht1.
    change (1 =? 0)%nat with false; cbv iota.
    destruct (IH (S t) s1 Ht1 Ha1) as (s' & Hr & Hl').
    exists s'; split; [exact Hr|].
    rewrite Hl', Hl, Ht1, <- app_assoc; reflexivity.
Qed.

(** X13.  With a kernel that neither creates nor removes tips the run
    is a single strand: the call returns, every entry of the active-count
    series is 1, the series has [tmax + 1] entries and the point history
    has [tmax + 1] rows. *)
Theorem single_strand_run g p fc fs tmax :
  kernel_keeps_count ->
  exists d,
    simulation_loop g p fc fs tmax = Some d /\
    d_evolve d = repeat 1%nat (S (Z.to_nat tmax)) /\
    length (d_coordinates d) = S (Z.to_nat tmax).
Proof.
  intros HK.
  destruct (for_range_keeps_count fc fs (Z.to_nat tmax) HK 0 (initial g p))
    as (s & Hr & Hl); [reflexivity | reflexivity |].
  exists (to_dict s); unfold simulation_loop, final_locals; rewrite Hr.
  split; [reflexivity|]; simpl in *; split; [exact Hl|].
  pose proof (histories_agree_reached _ _ _ _ _ _ Hr) as (Hsum & _).
  rewrite <- Hsum, Hl; unfold np_sum; simpl.
  clear; induction (Z.to_nat tmax) as [|n IH]; simpl; [reflexivity|].
  simpl in IH; rewrite IH; reflexivity.
Qed.

End Driver.

Arguments locals : clear implicits.
Arguments neuron {rng}.
Arguments gen {rng}.
Arguments coordinates {rng}.
Arguments coords_last {rng}.
Arguments coords_until {rng}.
Arguments angle_list {rng}.
Arguments last_tiplength_fin {rng}.
Arguments to_dict {rng}.
Arguments active {rng}.
Arguments initial {rng}.
Arguments grow_steer {rng}.
Arguments normalized {rng}.
Arguments step {rng}.
Arguments iteration {rng}.
Arguments for_range {rng}.
Arguments steps_executed {rng}.
Arguments guidance_calls {rng}.
Arguments final_locals {rng}.
Arguments simulation_loop {rng}.
Arguments kernel_aligned {rng}.

Arguments kernel_keeps_count {rng}.

(** ** The driver run on the sample kernel *)

Lemma demo_kernel_aligned : kernel_aligned demo_branching demo_guidance.
Proof.
  split.
  - intros g p tp an coords ma rt H.
    destruct g as [|[|] g]; simpl; rewrite ?length_app, ?length_map; lia.
  - intros g tp an cl ct fc fs ra H; simpl; rewrite length_map; exact H.
Qed.

(** A fork, an elongation, a fork, then annihilation: the counts are
    1, 2, 2, 4, 0 and there are nine point records. *)
Lemma sum_evolve_eq_len_coordinates_witness :
  exists d,
    simulation_loop demo_branching demo_guidance [true; false; true]
                    (5 / 100) (1 / 10) (-1 / 10) 10 = Some d /\
    d_evolve d = [1; 2; 2; 4; 0]%nat /\
    np_sum (d_evolve d) = length (d_coordinates d).
Proof.
  destruct (sum_evolve_eq_len_coordinates (list bool) demo_branching
              demo_guidance [true; false; true] (5 / 100) (1 / 10) (-1 / 10) 10)
    as [Hsum Hret].
  destruct (Hret demo_kernel_aligned) as [d Hd].
  exists d; split; [exact Hd|]; split; [|exact (Hsum d Hd)].
  vm_compute in Hd; injection Hd as <-; reflexivity.
Defined.

Lemma len_angles_eq_len_coordinates_witness :
  exists d,
    simulation_loop demo_branching demo_guidance [true; false; true]
                    (5 / 100) (1 / 10) (-1 / 10) 10 = Some d /\
    length (d_coordinates d) = 9%nat /\
    length (d_angles d) = length (d_coordinates d).
Proof.
  destruct (len_angles_eq_len_coordinates (list bool) demo_branching
              demo_guidance [true; false; true] (5 / 100) (1 / 10) (-1 / 10) 10)
    as [Hlen Hret].
  destruct (Hret demo_kernel_aligned) as [d Hd].
  exists d; split; [exact Hd|]; split; [|exact (Hlen d Hd)].
  vm_compute in Hd; injection Hd as <-; reflexivity.
Defined.

(** C2, the claim as stated fails: three elongations within a horizon of
    three steps leave an active-count series of four entries; and with a
    horizon of zero steps the series has one entry. *)
Lemma len_evolve_exceeds_tmax :
  (exists d,
      simulation_loop demo_branching demo_guidance [false; false; false]
                      (5 / 100) (1 / 10) (-1 / 10) 3 = Some d /\
      d_evolve d = [1; 1; 1; 1]%nat /\
      ~ (Z.of_nat (length (d_evolve d)) <= 3)%Z) /\
  (exists d,
      simulation_loop demo_branching demo_guidance [false; false; false]
                      (5 / 100) (1 / 10) (-1 / 10) 0 = Some d /\
      d_evolve d = [1]%nat /\
      ~ (Z.of_nat (length (d_evolve d)) <= 0)%Z).
Proof.
  split; eexists; (split; [vm_compute; reflexivity|]);
    (split; [reflexivity|]); simpl; lia.
Qed.

Lemma len_evolve_eq_steps_plus_one_witness :
  exists d,
    simulation_loop demo_branching demo_guidance [true; false; true]
                    (5 / 100) (1 / 10) (-1 / 10) 10 = Some d /\
    length (d_evolve d) =
      S (steps_executed demo_branching demo_guidance (1 / 10) (-1 / 10) 0
           (Z.to_nat 10) (initial [true; false; true] (5 / 100))) /\
    (length (d_evolve d) <= Z.to_nat 10 + 1)%nat /\
    (~ In 0%nat (d_evolve d) -> length (d_evolve d) = (Z.to_nat 10 + 1)%nat).
Proof.
  eexists; split; [vm_compute; reflexivity|].
  apply (len_evolve_eq_steps_plus_one (list bool) demo_branching demo_guidance
           [true; false; true] (5 / 100) (1 / 10) (-1 / 10) 10).
  vm_compute; reflexivity.
Defined.

(** C3, the claim as stated fails: with a branching probability of 2 and
    a horizon of -1 the call raises nothing. *)
Lemma invalid_parameters_do_not_raise :
  ~ (simulation_loop demo_branching demo_guidance [] 2 (1 / 10) (-1 / 10) (-1)
     = None).
Proof. discriminate. Qed.

Lemma nonpositive_tmax_returns_seed_witness :
  (-1 <= 0)%Z /\
  simulation_loop demo_branching demo_guidance [] 2 (1 / 10) (-1 / 10) (-1)
  = Some seed_output.
Proof.
  split; [lia|].
  apply (nonpositive_tmax_returns_seed (list bool) demo_branching demo_guidance
           [] 2 (1 / 10) (-1 / 10) (-1)); lia.
Defined.

Lemma seed_angle_row_in_radians_witness :
  exists d,
    simulation_loop demo_branching demo_guidance [false; false]
                    (5 / 100) (1 / 10) (-1 / 10) 2 = Some d /\
    hd_error (d_angles d) = Some (PI / 2, 0) /\
    np_degrees (PI / 2) = 90 /\ PI / 2 <> 90.
Proof.
  eexists; split; [vm_compute; reflexivity|].
  apply (seed_angle_row_in_radians (list bool) demo_branching demo_guidance
           [false; false] (5 / 100) (1 / 10) (-1 / 10) 2).
  vm_compute; reflexivity.
Defined.

(** C5, the claim as stated fails: the seed heads to [pi/2]; when it
    elongates and guidance turns it by [fc = pi/2] the heading is [pi],
    and the normalized heading of that step is [-pi]. *)
Lemma normalized_heading_reaches_minus_PI :
  exists s,
    In (0%nat, s)
       (guidance_calls demo_branching demo_guidance (PI / 2) 0 0 (Z.to_nat 1)
          (initial [false] (5 / 100))) /\
    normalized demo_branching demo_guidance (PI / 2) 0 s = [- PI] /\
    ~ Forall (fun h => - PI < h <= PI)
             (normalized demo_branching demo_guidance (PI / 2) 0 s).
Proof.
  exists (initial [false] (5 / 100)).
  assert (E : normalized demo_branching demo_guidance (PI / 2) 0
                (initial [false] (5 / 100)) = [- PI]).
  { change (normalized demo_branching demo_guidance (PI / 2) 0
              (initial [false] (5 / 100)))
      with [normalize (PI / 2 + PI / 2)].
    replace (PI / 2 + PI / 2) with PI by field.
    rewrite normalize_PI; reflexivity. }
  split; [left; reflexivity|]; split; [exact E|].
  rewrite E; intros H; inversion H; subst; lra.
Qed.

Lemma coords_until_excludes_last_two_steps_witness :
  exists s s',
    nth_error
      (guidance_calls demo_branching demo_guidance (1 / 10) (-1 / 10) 0
         (Z.to_nat 6) (initial [true; false; false; false; false; false] (5 / 100)))
      4 = Some (4%nat, s) /\
    nth_error
      (guidance_calls demo_branching demo_guidance (1 / 10) (-1 / 10) 0
         (Z.to_nat 6) (initial [true; false; false; false; false; false] (5 / 100)))
      2 = Some (2%nat, s') /\
    length (coords_until s) = 5%nat /\
    length (coordinates s') = 5%nat /\
    prefix (coords_until s) (coordinates s').
Proof.
  eexists; eexists.
  split; [vm_compute; reflexivity|]; split; [vm_compute; reflexivity|].
  split; [reflexivity|]; split; [reflexivity|].
  apply (coords_until_excludes_last_two_steps (list bool) demo_branching
           demo_guidance [true; false; false; false; false; false] (5 / 100)
           (1 / 10) (-1 / 10) 6 4 _ 2 _);
    [apply (nth_error_In _ 4); vm_compute; reflexivity
    |apply (nth_error_In _ 2); vm_compute; reflexivity
    |lia].
Defined.

Lemma stopped_run_is_final_witness :
  exists s,
    final_locals demo_branching demo_guidance [true] (5 / 100) (1 / 10) (-1 / 10) 2
    = Some s /\
    tip (neuron s) = [] /\
    final_locals demo_branching demo_guidance [true] (5 / 100) (1 / 10) (-1 / 10) 10
    = Some s /\
    simulation_loop demo_branching demo_guidance [true] (5 / 100) (1 / 10) (-1 / 10) 10
    = Some (to_dict s) /\
    steps_executed demo_branching demo_guidance (1 / 10) (-1 / 10) 0 (Z.to_nat 10)
      (initial [true] (5 / 100)) =
    steps_executed demo_branching demo_guidance (1 / 10) (-1 / 10) 0 (Z.to_nat 2)
      (initial [true] (5 / 100)).
Proof.
  eexists; split; [vm_compute; reflexivity|]; split; [reflexivity|].
  apply (stopped_run_is_final (list bool) demo_branching demo_guidance
           [true] (5 / 100) (1 / 10) (-1 / 10) 2 10);
    [vm_compute; reflexivity | reflexivity | lia].
Defined.

(** ** Further runs on the sample kernel *)

Lemma demo_walk_keeps_count : kernel_keeps_count demo_walk demo_guidance.
Proof.
  split; intros; unfold demo_walk, demo_guidance; simpl;
    rewrite ?length_map; auto.
Qed.

Lemma coords_last_is_previous_step_witness :
  exists s s1,
    nth_error
      (guidance_calls demo_branching demo_guidance (1 / 10) (-1 / 10) 0
         (Z.to_nat 3) (initial [true; false; false] (5 / 100)))
      2 = Some (2%nat, s) /\
    nth_error
      (guidance_calls demo_branching demo_guidance (1 / 10) (-1 / 10) 0
         (Z.to_nat 3) (initial [true; false; false] (5 / 100)))
      1 = Some (1%nat, s1) /\
    length (coords_last s) = 2%nat /\
    coords_last s = tip (neuron s) /\
    coordinates s = coordinates s1 ++ coords_last s.
Proof.
  eexists; eexists.
  split; [vm_compute; reflexivity|]; split; [vm_compute; reflexivity|].
  split; [reflexivity|].
  match goal with
  | |- coords_last ?s = _ /\ _ =>
      assert (Hin : In (2%nat, s)
                      (guidance_calls demo_branching demo_guidance (1 / 10)
                         (-1 / 10) 0 (Z.to_nat 3)
                         (initial [true; false; false] (5 / 100))))
        by (apply (nth_error_In _ 2); vm_compute; reflexivity);
      pose proof (proj2 (coords_last_is_previous_step (list bool)
                           demo_branching demo_guidance [true; false; false]
                           (5 / 100) (1 / 10) (-1 / 10) 3 2 s Hin)
                        (le_S 1 1 (le_n 1))) as H
  end.
  split; [exact (proj1 H)|].
  apply (proj2 H); apply (nth_error_In _ 1); vm_compute; reflexivity.
Defined.

Lemma coords_last_after_annihilation_witness :
  exists s',
    step demo_branching demo_guidance (1 / 10) (-1 / 10) 0
         (initial (@nil bool) (5 / 100)) = Some s' /\
    tip (neuron s') = [] /\
    coordinates s' = coordinates (initial (@nil bool) (5 / 100)) /\
    coords_last s' = coordinates s'.
Proof.
  eexists; split; [vm_compute; reflexivity|]; split; [reflexivity|].
  apply (coords_last_after_annihilation (list bool) demo_branching
           demo_guidance (1 / 10) (-1 / 10) 0 (initial (@nil bool) (5 / 100)));
    [vm_compute; reflexivity | reflexivity].
Defined.

Lemma coords_until_is_seed_at_first_witness :
  exists s,
    nth_error
      (guidance_calls demo_branching demo_guidance (1 / 10) (-1 / 10) 0
         (Z.to_nat 5) (initial [true; false; false; false; false] (5 / 100)))
      3 = Some (3%nat, s) /\
    length (coordinates s) = 7%nat /\
    coords_until s = [seed_row].
Proof.
  eexists; split; [vm_compute; reflexivity|]; split; [reflexivity|].
  apply (coords_until_is_seed_at_first (list bool) demo_branching
           demo_guidance [true; false; false; false; false] (5 / 100)
           (1 / 10) (-1 / 10) 5 3);
    [apply (nth_error_In _ 3); vm_compute; reflexivity | lia].
Defined.

Lemma coords_until_is_history_two_steps_back_witness :
  exists s s0,
    nth_error
      (guidance_calls demo_branching demo_guidance (1 / 10) (-1 / 10) 0
         (Z.to_nat 5) (initial [true; false; false; false; false] (5 / 100)))
      4 = Some (4%nat, s) /\
    nth_error
      (guidance_calls demo_branching demo_guidance (1 / 10) (-1 / 10) 0
         (Z.to_nat 5) (initial [true; false; false; false; false] (5 / 100)))
      2 = Some (2%nat, s0) /\
    length (coords_until s) = 5%nat /\
    coords_until s = coordinates s0.
Proof.
  eexists; eexists.
  split; [vm_compute; reflexivity|]; split; [vm_compute; reflexivity|].
  split; [reflexivity|].
  apply (coords_until_is_history_two_steps_back (list bool) demo_branching
           demo_guidance [true; false; false; false; false] (5 / 100)
           (1 / 10) (-1 / 10) 5 4);
    [apply (nth_error_In _ 4); vm_compute; reflexivity
    |apply (nth_error_In _ 2); vm_compute; reflexivity
    |lia].
Defined.

Lemma longer_horizon_extends_histories_witness :
  exists d d',
    simulation_loop demo_branching demo_guidance [true; false; true]
                    (5 / 100) (1 / 10) (-1 / 10) 2 = Some d /\
    simulation_loop demo_branching demo_guidance [true; false; true]
                    (5 / 100) (1 / 10) (-1 / 10) 4 = Some d' /\
    d_evolve d = [1; 2; 2]%nat /\ d_evolve d' = [1; 2; 2; 4; 0]%nat /\
    prefix (d_coordinates d) (d_coordinates d') /\
    prefix (d_angles d) (d_angles d') /\
    prefix (d_evolve d) (d_evolve d').
Proof.
  eexists; eexists.
  split; [vm_compute; reflexivity|]; split; [vm_compute; reflexivity|].
  split; [reflexivity|]; split; [reflexivity|].
  apply (longer_horizon_extends_histories (list bool) demo_branching
           demo_guidance [true; false; true] (5 / 100) (1 / 10) (-1 / 10) 2 4);
    [vm_compute; reflexivity | vm_compute; reflexivity | lia].
Defined.

Lemma zero_count_only_last_witness :
  exists d,
    simulation_loop demo_branching demo_guidance [true; false; true]
                    (5 / 100) (1 / 10) (-1 / 10) 10 = Some d /\
    d_evolve d = [1; 2; 2; 4; 0]%nat /\
    Forall (fun k => (0 < k)%nat) (removelast (d_evolve d)).
Proof.
  eexists; split; [vm_compute; reflexivity|]; split; [reflexivity|].
  apply (zero_count_only_last (list bool) demo_branching demo_guidance
           [true; false; true] (5 / 100) (1 / 10) (-1 / 10) 10).
  vm_compute; reflexivity.
Defined.

Lemma angles_generation_matches_coordinates_witness :
  exists d,
    simulation_loop demo_branching demo_guidance [true; false; true]
                    (5 / 100) (1 / 10) (-1 / 10) 10 = Some d /\
    length (d_angles d) = 9%nat /\
    map snd (tl (d_angles d)) = map col3 (tl (d_coordinates d)).
Proof.
  eexists; split; [vm_compute; reflexivity|]; split; [reflexivity|].
  apply (angles_generation_matches_coordinates (list bool) demo_branching
           demo_guidance [true; false; true] (5 / 100) (1 / 10) (-1 / 10) 10).
  vm_compute; reflexivity.
Defined.

Lemma recorded_degrees_within_half_turn_witness :
  exists d,
    simulation_loop demo_branching demo_guidance [true; false; true]
                    (5 / 100) (1 / 10) (-1 / 10) 10 = Some d /\
    length (tl (d_angles d)) = 8%nat /\
    Forall (fun r => -180 <= fst r <= 180) (tl (d_angles d)).
Proof.
  eexists; split; [vm_compute; reflexivity|]; split; [reflexivity|].
  apply (recorded_degrees_within_half_turn (list bool) demo_branching
           demo_guidance [true; false; true] (5 / 100) (1 / 10) (-1 / 10) 10).
  vm_compute; reflexivity.
Defined.

Lemma evolve_entry_is_tip_count_witness :
  exists d s,
    simulation_loop demo_branching demo_guidance [true; false; true]
                    (5 / 100) (1 / 10) (-1 / 10) 10 = Some d /\
    nth_error
      (guidance_calls demo_branching demo_guidance (1 / 10) (-1 / 10) 0
         (Z.to_nat 10) (initial [true; false; true] (5 / 100)))
      2 = Some (2%nat, s) /\
    d_evolve d = [1; 2; 2; 4; 0]%nat /\
    length (tip (neuron s)) = 2%nat /\
    nth_error (d_evolve d) 2 = Some (length (tip (neuron s))) /\
    nth_error (d_evolve d) 3 =
      Some (length (tip (fst (grow_steer demo_branching demo_guidance
                                (1 / 10) (-1 / 10) s)))).
Proof.
  eexists; eexists.
  split; [vm_compute; reflexivity|]; split; [vm_compute; reflexivity|].
  split; [reflexivity|]; split; [reflexivity|].
  apply (proj2 (evolve_entry_is_tip_count (list bool) demo_branching
                  demo_guidance [true; false; true] (5 / 100) (1 / 10)
                  (-1 / 10) 10 _ ltac:(vm_compute; reflexivity)) 2%nat).
  apply (nth_error_In _ 2); vm_compute; reflexivity.
Defined.

Lemma misaligned_kernel_output_raises_witness :
  simulation_loop demo_branching demo_guidance_no_heading [false]
                  (5 / 100) (1 / 10) (-1 / 10) 1 = None.
Proof.
  apply (misaligned_kernel_output_raises (list bool) demo_branching
           demo_guidance_no_heading [false] (5 / 100) (1 / 10) (-1 / 10) 1
           0 (initial [false] (5 / 100))).
  - left; reflexivity.
  - simpl; discriminate.
Defined.

Lemma single_strand_run_witness :
  exists d,
    simulation_loop demo_walk demo_guidance [] (5 / 100) (1 / 10) (-1 / 10) 5
    = Some d /\
    d_evolve d = repeat 1%nat (S (Z.to_nat 5)) /\
    length (d_coordinates d) = S (Z.to_nat 5).
Proof.
  exact (single_strand_run (list bool) demo_walk demo_guidance []
           (5 / 100) (1 / 10) (-1 / 10) 5 demo_walk_keeps_count).
Defined.
